(** * GenericFSM: a telephone-call state machine (main.cpp)

    Shallow embedding of [src/main.cpp] and the properties of its
    transition table, state handlers, event stub and engine loop.

    Conventions of the embedding:
    - an [enum] is an inductive type, its enumerator values are given by an
      index function ([Event_index], [StateDescriptor_index]);
    - [std::map<Event, OpHandler>] is a [gmap Event (option OpHandler)], a
      function pointer being [Some f] or the null pointer [None];
    - [std::shared_ptr<State>] is an optional address into a heap of
      reference-counted objects ([None] is [nullptr]);
    - undefined behaviour and uncaught exceptions are explicit [Crash]
      results: nothing is known of the program after them;
    - text written to [std::cout] is returned as a list of lines. *)

From Stdlib Require Import ZArith Lia.
From stdpp Require Import gmap strings list fin_maps.

Open Scope Z_scope.

(** ** Enumerations *)

Inductive Event : Set :=
  | INCOMING_CALL
  | CALL_DECLINED
  | CALL_ANSWERED
  | CALL_ENDED.

Inductive StateDescriptor : Set :=
  | IDLE
  | PHONE_RING
  | IN_CALL.

(** The enumerator values, used to index [mapping]. *)
Definition Event_index (e : Event) : nat :=
  match e with
  | INCOMING_CALL => 0
  | CALL_DECLINED => 1
  | CALL_ANSWERED => 2
  | CALL_ENDED => 3
  end.

Definition Event_of_index (n : nat) : option Event :=
  match n with
  | 0%nat => Some INCOMING_CALL
  | 1%nat => Some CALL_DECLINED
  | 2%nat => Some CALL_ANSWERED
  | 3%nat => Some CALL_ENDED
  | _ => None
  end.

Definition StateDescriptor_index (sd : StateDescriptor) : nat :=
  match sd with
  | IDLE => 0
  | PHONE_RING => 1
  | IN_CALL => 2
  end.

#[global] Instance Event_eq_dec : EqDecision Event.
Proof. solve_decision. Defined.

#[global] Instance StateDescriptor_eq_dec : EqDecision StateDescriptor.
Proof. solve_decision. Defined.

#[global] Instance Event_countable : Countable Event.
Proof.
  refine (inj_countable Event_index Event_of_index _). by intros [].
Defined.

Definition all_events : list Event :=
  [INCOMING_CALL; CALL_DECLINED; CALL_ANSWERED; CALL_ENDED].

Definition all_descriptors : list StateDescriptor :=
  [IDLE; PHONE_RING; IN_CALL].

(** ** Results of running code *)

Inductive Fault : Set :=
  | NullFunctionCall                (* call through a null function pointer *)
  | NullPointerDeref                (* [->] on an empty [shared_ptr] *)
  | DanglingDeref                   (* [->] on a destroyed object *)
  | Uncaught (what : string).       (* exception leaving [main] *)

Inductive Result (A : Type) : Type :=
  | Ok (a : A)
  | Crash (f : Fault).

Arguments Ok {A} a.
Arguments Crash {A} f.

Definition bind {A B : Type} (r : Result A) (k : A -> Result B) : Result B :=
  match r with
  | Ok a => k a
  | Crash f => Crash f
  end.

Notation "'do' x <- r ; k" := (bind r (fun x => k))
  (at level 10, x pattern, r at level 100, k at level 200).

Definition is_ok {A : Type} (r : Result A) : bool :=
  match r with
  | Ok _ => true
  | Crash _ => false
  end.

(** ** Operations: [OpHandler], a pointer to a function without arguments *)

Inductive OpHandler : Set :=
  | incoming_call_handler          (* Idle::incoming_call_handler *)
  | call_answered_handler          (* PhoneRinging::call_answered_handler *)
  | call_declined_handler          (* PhoneRinging::call_declined_handler *)
  | call_ended_handler.            (* InCall::call_ended_handler *)

Definition endl : string := String (Ascii.ascii_of_nat 10) EmptyString.

(** What the static function behind the pointer writes to [std::cout]. *)
Definition invoke (f : OpHandler) : list string :=
  match f with
  | incoming_call_handler => ["Phone started ringing" +:+ endl]
  | call_answered_handler => ["Call answered. Starting conversation" +:+ endl]
  | call_declined_handler => ["Call declined" +:+ endl]
  | call_ended_handler => ["Call ended" +:+ endl]
  end.

(** Calling a possibly null function pointer. *)
Definition call_pointer (h : option OpHandler) : Result (list string) :=
  match h with
  | Some f => Ok (invoke f)
  | None => Crash NullFunctionCall
  end.

(** ** [std::map<Event, OpHandler>] *)

Module HandlerMap.

Abbreviation t := (gmap Event (option OpHandler)).

(** [std::map::insert]: keeps the old entry when the key is present. *)
Definition insert (e : Event) (f : OpHandler) (m : t) : t :=
  match m !! e with
  | Some _ => m
  | None => <[e := Some f]> m
  end.

(** [std::map::operator[]]: a missing key is first inserted with a
    value-initialised (null) pointer; the mapped value is returned. *)
Definition subscript (m : t) (e : Event) : t * option OpHandler :=
  match m !! e with
  | Some h => (m, h)
  | None => (<[e := None]> m, None)
  end.

End HandlerMap.

(** ** The [State] hierarchy

    [State] is abstract; an object is one of the three derived classes,
    each with its own [handler_map] member. *)

Inductive State : Type :=
  | Idle (handler_map : HandlerMap.t)
  | PhoneRinging (handler_map : HandlerMap.t)
  | InCall (handler_map : HandlerMap.t).

Definition handler_map (s : State) : HandlerMap.t :=
  match s with
  | Idle m | PhoneRinging m | InCall m => m
  end.

Definition with_handler_map (s : State) (m : HandlerMap.t) : State :=
  match s with
  | Idle _ => Idle m
  | PhoneRinging _ => PhoneRinging m
  | InCall _ => InCall m
  end.

(** The constructors [Idle()], [PhoneRinging()], [InCall()]. *)
Definition Idle_new : State :=
  Idle (HandlerMap.insert INCOMING_CALL incoming_call_handler ∅).

Definition PhoneRinging_new : State :=
  PhoneRinging
    (HandlerMap.insert CALL_DECLINED call_declined_handler
       (HandlerMap.insert CALL_ANSWERED call_answered_handler ∅)).

Definition InCall_new : State :=
  InCall (HandlerMap.insert CALL_ENDED call_ended_handler ∅).

(** [virtual StateDescriptor get_descriptor() const] *)
Definition get_descriptor (s : State) : StateDescriptor :=
  match s with
  | Idle _ => IDLE
  | PhoneRinging _ => PHONE_RING
  | InCall _ => IN_CALL
  end.

(** [virtual void do_op(Event e) { handler_map[e](); }], the same body in
    the three classes: the object after the subscript, and what the call
    wrote. *)
Definition do_op (s : State) (e : Event) : Result (State * list string) :=
  let '(m, h) := HandlerMap.subscript (handler_map s) e in
  do out <- call_pointer h;
  Ok (with_handler_map s m, out).

(** Whether the object's map holds a non-null operation for [e]. *)
Definition has_handler (s : State) (e : Event) : bool :=
  match handler_map s !! e with
  | Some (Some _) => true
  | _ => false
  end.

(** ** The heap and [std::shared_ptr<State>]

    Objects created by [new] live in a heap of cells; a cell carries the
    use count of the [shared_ptr]s that own it and is destroyed when the
    count drops to zero. *)

Abbreviation addr := nat (only parsing).
Abbreviation shared_ptr := (option nat) (only parsing).

Record Cell : Type := mkCell {
  object : State;
  use_count : nat
}.

Record Heap : Type := mkHeap {
  cells : gmap nat Cell;
  next_addr : nat
}.

Definition empty_heap : Heap := {| cells := ∅; next_addr := 0 |}.

(** [std::shared_ptr<State> p {new T()}] *)
Definition make_shared (s : State) (h : Heap) : shared_ptr * Heap :=
  let a := next_addr h in
  (Some a,
   {| cells := <[a := {| object := s; use_count := 1 |}]> (cells h);
      next_addr := S a |}).

(** Copying a [shared_ptr]: one more owner. *)
Definition copy_ptr (p : shared_ptr) (h : Heap) : Heap :=
  match p with
  | None => h
  | Some a =>
      {| cells := alter (fun c => {| object := object c;
                                     use_count := S (use_count c) |}) a (cells h);
         next_addr := next_addr h |}
  end.

(** Destroying or overwriting a [shared_ptr]: one owner less, and the
    object is deleted with its last owner. *)
Definition drop_ptr (p : shared_ptr) (h : Heap) : Heap :=
  match p with
  | None => h
  | Some a =>
      match cells h !! a with
      | None => h
      | Some c =>
          {| cells :=
               match use_count c with
               | O | S O => delete a (cells h)
               | S n => <[a := {| object := object c; use_count := n |}]> (cells h)
               end;
             next_addr := next_addr h |}
      end
  end.

(** [p->...]: the object behind the pointer. *)
Definition deref (p : shared_ptr) (h : Heap) : Result State :=
  match p with
  | None => Crash NullPointerDeref
  | Some a =>
      match cells h !! a with
      | Some c => Ok (object c)
      | None => Crash DanglingDeref
      end
  end.

(** Writing back the object a member function has modified. *)
Definition store (p : shared_ptr) (s : State) (h : Heap) : Heap :=
  match p with
  | None => h
  | Some a =>
      {| cells := alter (fun c => {| object := s; use_count := use_count c |})
                    a (cells h);
         next_addr := next_addr h |}
  end.

(** ** [class TransitionManager] *)

Definition NUM_STATES : nat := 3.
Definition NUM_EVENTS : nat := 4.

Record TransitionManager : Type := mkTransitionManager {
  mapping : list (list shared_ptr);       (* [NUM_STATES][NUM_EVENTS] *)
  idle_state : shared_ptr;
  phone_ringing_state : shared_ptr;
  in_call_state : shared_ptr
}.

(** [mapping[sd][event]]; the indices are enumerator values, always within
    the bounds of the array. *)
Definition mapping_get (mp : list (list shared_ptr))
    (sd : StateDescriptor) (e : Event) : shared_ptr :=
  match mp !! StateDescriptor_index sd with
  | Some row => default None (row !! Event_index e)
  | None => None
  end.

Definition mapping_set (mp : list (list shared_ptr))
    (sd : StateDescriptor) (e : Event) (p : shared_ptr) : list (list shared_ptr) :=
  alter (fun row => <[Event_index e := p]> row) (StateDescriptor_index sd) mp.

(** [mapping[sd][event] = p;] the cell takes a share of [p] and gives up
    the pointer it held. *)
Definition assign (sd : StateDescriptor) (e : Event) (p : shared_ptr)
    (st : list (list shared_ptr) * Heap) : list (list shared_ptr) * Heap :=
  let '(mp, h) := st in
  (mapping_set mp sd e p, drop_ptr (mapping_get mp sd e) (copy_ptr p h)).

(** The constructor: the members are initialised in declaration order (the
    array with empty pointers, then the three handlers), then the body runs
    its twelve assignments. *)
Definition TransitionManager_new (h : Heap) : TransitionManager * Heap :=
  let mp0 : list (list shared_ptr) := replicate NUM_STATES (replicate NUM_EVENTS None) in
  let '(idle, h) := make_shared Idle_new h in
  let '(ringing, h) := make_shared PhoneRinging_new h in
  let '(in_call, h) := make_shared InCall_new h in
  let st := (mp0, h) in
  let st := assign IDLE INCOMING_CALL ringing st in
  let st := assign IDLE CALL_ANSWERED None st in
  let st := assign IDLE CALL_DECLINED None st in
  let st := assign IDLE CALL_ENDED None st in
  let st := assign PHONE_RING INCOMING_CALL None st in
  let st := assign PHONE_RING CALL_ANSWERED in_call st in
  let st := assign PHONE_RING CALL_DECLINED idle st in
  let st := assign PHONE_RING CALL_ENDED None st in
  let st := assign IN_CALL INCOMING_CALL None st in
  let st := assign IN_CALL CALL_ANSWERED None st in
  let st := assign IN_CALL CALL_DECLINED None st in
  let st := assign IN_CALL CALL_ENDED idle st in
  ({| mapping := st.1;
      idle_state := idle;
      phone_ringing_state := ringing;
      in_call_state := in_call |},
   st.2).

(** [get_next_state]: the entry, returned by value (a new owner). *)
Definition get_next_state (tm : TransitionManager)
    (sd : StateDescriptor) (e : Event) (h : Heap) : shared_ptr * Heap :=
  let p := mapping_get (mapping tm) sd e in
  (p, copy_ptr p h).

(** ** [get_event]

    [c] is the function's static counter [call]; the result is the event
    returned and the counter left behind.  The [return] that follows the
    [throw] in the source can never run and has no counterpart here. *)
Definition get_event (c : Z) : Result (Event * Z) :=
  if decide (c = 0) then Ok (INCOMING_CALL, c + 1)
  else if decide (c = 1) then Ok (CALL_ANSWERED, c + 1)
  else if decide (c = 2) then Ok (CALL_ENDED, 0)
  else Crash (Uncaught "Fatal error: case must not be reached").

(** ** [class FSM] *)

Record FSM : Type := mkFSM {
  current_state : shared_ptr
}.

(** [FSM() : current_state(new Idle()) {}] *)
Definition FSM_new (h : Heap) : FSM * Heap :=
  let '(p, h) := make_shared Idle_new h in
  ({| current_state := p |}, h).

(** The objects of [main] and the static counter of [get_event]. *)
Record Program : Type := mkProgram {
  heap : Heap;
  fsm : FSM;
  manager : TransitionManager;
  call : Z
}.

(** [main] up to the call of [fsm.run]: [FSM fsm; TransitionManager manager;]. *)
Definition main_init : Program :=
  let '(f, h) := FSM_new empty_heap in
  let '(tm, h) := TransitionManager_new h in
  {| heap := h; fsm := f; manager := tm; call := 0 |}.

(** [current_state->do_op(e);] (line 209) *)
Definition dispatch (e : Event) (p : Program) : Result (Program * list string) :=
  do s <- deref (current_state (fsm p)) (heap p);
  do (s', out) <- do_op s e;
  Ok ({| heap := store (current_state (fsm p)) s' (heap p);
         fsm := fsm p; manager := manager p; call := call p |}, out).

(** [current_state = transition_manager.get_next_state(
       current_state->get_descriptor(), e);] (line 210) *)
Definition transition (e : Event) (p : Program) : Result Program :=
  do s <- deref (current_state (fsm p)) (heap p);
  let '(next, h) := get_next_state (manager p) (get_descriptor s) e (heap p) in
  Ok {| heap := drop_ptr (current_state (fsm p)) h;
        fsm := {| current_state := next |};
        manager := manager p; call := call p |}.

(** One turn of the loop of [FSM::run] once the event [e] is known
    (lines 209 and 210). *)
Definition process (e : Event) (p : Program) : Result (Program * list string) :=
  do (p, out) <- dispatch e p;
  do p <- transition e p;
  Ok (p, out).

(** The loop with its events given from outside, one per turn. *)
Fixpoint run_events (es : list Event) (p : Program) : Result (Program * list string) :=
  match es with
  | [] => Ok (p, [])
  | e :: es =>
      do (p, out) <- process e p;
      do (p, outs) <- run_events es p;
      Ok (p, out ++ outs)
  end.

(** [FSM::run]: the loop never leaves by itself, so it is unrolled for a
    given number of returns from [event_ready.wait(lock)]; each turn takes
    its event from [get_event]. [Ok] is the program back at [loop:]. *)
Fixpoint run (wakeups : nat) (p : Program) : Result (Program * list string) :=
  match wakeups with
  | O => Ok (p, [])
  | S n =>
      do (e, c) <- get_event (call p);
      do (p, out) <- process e {| heap := heap p; fsm := fsm p;
                                   manager := manager p; call := c |};
      do (p, outs) <- run n p;
      Ok (p, out ++ outs)
  end.

(** The descriptor of the current state, when there is one. *)
Definition current_descriptor (p : Program) : Result StateDescriptor :=
  do s <- deref (current_state (fsm p)) (heap p);
  Ok (get_descriptor s).

(** The descriptors the machine goes through while the events are
    processed, the starting one included; [None] ends the list where the
    program has crashed. *)
Fixpoint visited (es : list Event) (p : Program) : list (option StateDescriptor) :=
  match current_descriptor p with
  | Crash _ => [None]
  | Ok sd =>
      Some sd ::
      match es with
      | [] => []
      | e :: es =>
          match process e p with
          | Ok (p, _) => visited es p
          | Crash _ => [None]
          end
      end
  end.

(** ** Derived notions used by the statements *)

(** The manager's handler instance for a descriptor. *)
Definition instance_of (tm : TransitionManager) (sd : StateDescriptor) : shared_ptr :=
  match sd with
  | IDLE => idle_state tm
  | PHONE_RING => phone_ringing_state tm
  | IN_CALL => in_call_state tm
  end.

(** The freshly constructed handler of each class. *)
Definition new_State (sd : StateDescriptor) : State :=
  match sd with
  | IDLE => Idle_new
  | PHONE_RING => PhoneRinging_new
  | IN_CALL => InCall_new
  end.

(** The operation a freshly constructed handler of class [sd] holds for
    [e], if any. *)
Definition operation (sd : StateDescriptor) (e : Event) : option OpHandler :=
  default None (handler_map (new_State sd) !! e).

(** The table as the documentation gives it: four rows, every other pair
    has no next state. *)
Definition table_next (sd : StateDescriptor) (e : Event) : option StateDescriptor :=
  match sd, e with
  | IDLE, INCOMING_CALL => Some PHONE_RING
  | PHONE_RING, CALL_ANSWERED => Some IN_CALL
  | PHONE_RING, CALL_DECLINED => Some IDLE
  | IN_CALL, CALL_ENDED => Some IDLE
  | _, _ => None
  end.

(** Following the documented table along a list of events. *)
Fixpoint table_path (sd : StateDescriptor) (es : list Event) : option StateDescriptor :=
  match es with
  | [] => Some sd
  | e :: es =>
      match table_next sd e with
      | Some sd' => table_path sd' es
      | None => None
      end
  end.

(** The program with the counter of [get_event] at [c]. *)
Definition with_call (c : Z) (p : Program) : Program :=
  {| heap := heap p; fsm := fsm p; manager := manager p; call := c |}.

(** The program once the machine has moved to the manager's instance for
    [sd]: the handler the [FSM] built for itself is gone, and the instance
    has the [FSM] as one more owner. *)
Definition settled (sd : StateDescriptor) (c : Z) : Program :=
  let tm := manager main_init in
  {| heap := copy_ptr (instance_of tm sd)
               (drop_ptr (current_state (fsm main_init)) (heap main_init));
     fsm := {| current_state := instance_of tm sd |};
     manager := tm;
     call := c |}.

(** The accepted sequence of the demonstration and what it prints. *)
Definition call_cycle : list Event := [INCOMING_CALL; CALL_ANSWERED; CALL_ENDED].

Definition call_cycle_output : list string :=
  invoke incoming_call_handler ++ invoke call_answered_handler
    ++ invoke call_ended_handler.

(** The value of the static counter after [n] calls of [get_event], and
    the event the next call returns ([nth_event 0] is the first call). *)
Fixpoint call_after (n : nat) : Result Z :=
  match n with
  | O => Ok 0
  | S n =>
      do c <- call_after n;
      do (_, c') <- get_event c;
      Ok c'
  end.

Definition nth_event (n : nat) : Result Event :=
  do c <- call_after n;
  do (e, _) <- get_event c;
  Ok e.

(** The current-state reference is one of the manager's three instances
    and the object behind it is alive. *)
Definition holds_manager_instance (p : Program) : Prop :=
  current_state (fsm p) ∈
    [idle_state (manager p); phone_ringing_state (manager p); in_call_state (manager p)]
  ∧ is_ok (deref (current_state (fsm p)) (heap p)) = true.

(** The current-state reference is a live object owned by somebody. *)
Definition holds_live_state (p : Program) (sd : StateDescriptor) : Prop :=
  ∃ a c, current_state (fsm p) = Some a
         ∧ cells (heap p) !! a = Some c
         ∧ (0 < use_count c)%nat
         ∧ get_descriptor (object c) = sd.

(** Where the loop of [run] stands after [n] turns from [main_init]. *)
Definition after_turns (n : nat) : Program :=
  match n with
  | O => main_init
  | S _ =>
      match (n mod 3)%nat with
      | 0%nat => settled IDLE 0
      | 1%nat => settled PHONE_RING 1
      | _ => settled IN_CALL 2
      end
  end.

(** After the events [es] the program runs on and its current state is
    one of the manager's three instances, alive. *)
Definition keeps_manager_instance (es : list Event) : Prop :=
  ∃ p out, run_events es main_init = Ok (p, out) ∧ holds_manager_instance p.

(** ** Further notions: ownership, delivered events, the table's output *)

(** Every [shared_ptr] the program holds: the current state of the [FSM],
    the three members of the manager and the cells of its table. *)
Definition owners (p : Program) : list (option nat) :=
  current_state (fsm p)
    :: idle_state (manager p)
    :: phone_ringing_state (manager p)
    :: in_call_state (manager p)
    :: concat (mapping (manager p)).

(** How many of them point to the object at [a]. *)
Definition owner_count (p : Program) (a : nat) : nat :=
  length (filter (λ q, q = Some a) (owners p)).

(** The use counts are the numbers of owners, and every owner points to
    a live object. *)
Definition counts_consistent (p : Program) : Prop :=
  map_Forall (λ a c, use_count c = owner_count p a ∧ (0 < use_count c)%nat)
    (cells (heap p))
  ∧ Forall (λ q, match q with
                 | Some a => is_Some (cells (heap p) !! a)
                 | None => True
                 end) (owners p).

#[global] Instance counts_consistent_dec (p : Program) : Decision (counts_consistent p).
Proof.
  unfold counts_consistent. apply and_dec; [apply _|].
  apply Forall_dec. intros [a|]; apply _.
Defined.

(** Every object of [h'] was in [h] already, with the same contents. *)
Definition objects_kept (h h' : Heap) : Prop :=
  ∀ a c', cells h' !! a = Some c' →
    ∃ c, cells h !! a = Some c ∧ object c' = object c.

(** One more owner for a cell, as [copy_ptr] does it. *)
Definition one_more (c : Cell) : Cell :=
  {| object := object c; use_count := S (use_count c) |}.

(** The events the next [n] calls of [get_event] return from the
    counter [c], and the counter they leave. *)
Fixpoint delivered (n : nat) (c : Z) : Result (list Event * Z) :=
  match n with
  | O => Ok ([], c)
  | S n =>
      do (e, c) <- get_event c;
      do (es, c) <- delivered n c;
      Ok (e :: es, c)
  end.

(** What the documented table makes of a list of events: the lines that
    the registered operations print along it, up to the first event
    without a row. *)
Fixpoint table_output (sd : StateDescriptor) (es : list Event) : list string :=
  match es with
  | [] => []
  | e :: es =>
      match table_next sd e, operation sd e with
      | Some sd', Some f => invoke f ++ table_output sd' es
      | _, _ => []
      end
  end.

(** * Properties *)

(** ** The handlers *)

Section Handlers.

(** A fresh handler holds an operation exactly for the events that have
    a row for its state in the documented table. *)
Lemma has_handler_table (sd : StateDescriptor) (e : Event) :
  has_handler (new_State sd) e = bool_decide (is_Some (table_next sd e)).
Proof. by destruct sd, e. Qed.

Lemma operation_has_handler (sd : StateDescriptor) (e : Event) :
  has_handler (new_State sd) e = bool_decide (is_Some (operation sd e)).
Proof. by destruct sd, e. Qed.

(** [do_op] on an event the handler knows runs the operation and leaves
    the object as it was. *)
Lemma do_op_registered (sd : StateDescriptor) (e : Event) (f : OpHandler) :
  operation sd e = Some f →
  do_op (new_State sd) e = Ok (new_State sd, invoke f).
Proof. destruct sd, e; intros [= <-]; reflexivity. Qed.

(** Claim C3 asks that [do_op] on an event outside the handler's accepted
    set fail with an UnhandledEventError carrying the state and the
    event. On the code, for every handler class and every event it has
    no operation for, the subscript [handler_map[e]] inserts a null
    pointer for [e] into the handler's map and returns it, and [do_op]
    calls through that null pointer: no error value is produced, the
    behaviour is undefined. *)
Theorem do_op_unhandled_event (sd : StateDescriptor) (e : Event) :
  has_handler (new_State sd) e = false →
  HandlerMap.subscript (handler_map (new_State sd)) e
    = (<[e := None]> (handler_map (new_State sd)), None)
  ∧ do_op (new_State sd) e = Crash NullFunctionCall.
Proof. destruct sd, e; intros H; try discriminate H; split; reflexivity. Qed.

Lemma do_op_unhandled_event_witness :
  has_handler (new_State IDLE) CALL_ANSWERED = false
  ∧ HandlerMap.subscript (handler_map (new_State IDLE)) CALL_ANSWERED
      = (<[CALL_ANSWERED := None]> (handler_map (new_State IDLE)), None)
  ∧ do_op (new_State IDLE) CALL_ANSWERED = Crash NullFunctionCall.
Proof.
  split; [reflexivity | apply (do_op_unhandled_event IDLE CALL_ANSWERED); reflexivity].
Defined.

End Handlers.

(** ** The transition table *)

Section Table.

Lemma mapping_dimensions :
  length (mapping (manager main_init)) = NUM_STATES
  ∧ Forall (fun row => length row = NUM_EVENTS) (mapping (manager main_init)).
Proof. split; [reflexivity | repeat constructor]. Qed.

(** The three members point to three distinct live objects, one of each
    class. *)
Lemma instances_descriptors (sd : StateDescriptor) :
  current_descriptor
    {| heap := heap main_init; fsm := {| current_state := instance_of (manager main_init) sd |};
       manager := manager main_init; call := 0 |} = Ok sd.
Proof. by destruct sd. Qed.

Lemma instance_of_inj : Inj (=) (=) (instance_of (manager main_init)).
Proof. intros [] [] H; first [reflexivity | discriminate H]. Qed.

(** Claim C2: the table built by the constructor is the four-row table.
    For each of the twelve pairs, [get_next_state] returns the manager's
    instance for the documented next state (whose descriptor is that
    state) when the pair has a row, and the empty pointer otherwise. *)
Theorem get_next_state_table (sd : StateDescriptor) (e : Event) :
  (get_next_state (manager main_init) sd e (heap main_init)).1
    = match table_next sd e with
      | Some sd' => instance_of (manager main_init) sd'
      | None => None
      end
  ∧ (do s <- deref (get_next_state (manager main_init) sd e (heap main_init)).1 (heap main_init);
     Ok (get_descriptor s))
    = match table_next sd e with
      | Some sd' => Ok sd'
      | None => Crash NullPointerDeref
      end
  ∧ table_next IDLE INCOMING_CALL = Some PHONE_RING
  ∧ table_next PHONE_RING CALL_ANSWERED = Some IN_CALL
  ∧ table_next PHONE_RING CALL_DECLINED = Some IDLE
  ∧ table_next IN_CALL CALL_ENDED = Some IDLE.
Proof. destruct sd, e; repeat split; reflexivity. Qed.

End Table.

(** ** One turn of the loop *)

Section Process.

(** The manager is passed by [const] reference: no turn changes it. *)
Lemma process_manager (e : Event) (p p' : Program) (out : list string) :
  process e p = Ok (p', out) → manager p' = manager p.
Proof.
  unfold process, dispatch, transition. intros H.
  destruct (deref (current_state (fsm p)) (heap p)) as [s|]; [|discriminate H].
  cbn in H. destruct (do_op s e) as [[s' o]|]; [|discriminate H].
  cbn in H.
  match type of H with
  | context [deref ?q ?h] => destruct (deref q h); [|discriminate H]
  end.
  cbn in H. by injection H as <- _.
Qed.

(** From a settled program, an event with a row in the table runs the
    handler's operation and settles on the next state; any other event
    is a call through a null pointer. *)
Lemma process_settled (sd : StateDescriptor) (e : Event) (c : Z) :
  process e (settled sd c)
    = match table_next sd e, operation sd e with
      | Some sd', Some f => Ok (settled sd' c, invoke f)
      | _, _ => Crash NullFunctionCall
      end.
Proof. destruct sd, e; vm_compute; reflexivity. Qed.

(** The same from the program as [main] builds it. *)
Lemma process_main_init (e : Event) (c : Z) :
  process e (with_call c main_init)
    = match table_next IDLE e, operation IDLE e with
      | Some sd', Some f => Ok (settled sd' c, invoke f)
      | _, _ => Crash NullFunctionCall
      end.
Proof. destruct e; vm_compute; reflexivity. Qed.

Lemma with_call_main_init : with_call 0 main_init = main_init.
Proof. reflexivity. Qed.

(** Claim C1 asks that an event outside the table leave the state
    unchanged and report an error. On the code, with the machine in its
    initial state Idle and the event CALL_ANSWERED: the turn crashes in
    [do_op] on a null function pointer; the table lookup that would
    follow yields the empty pointer, which [transition] stores as the
    current state without a check. The same holds from every state for
    every pair outside the table. *)
Theorem process_rejected_event :
  process CALL_ANSWERED main_init = Crash NullFunctionCall
  ∧ (∃ p, transition CALL_ANSWERED main_init = Ok p
          ∧ current_state (fsm p) = None
          ∧ current_state (fsm p) ≠ current_state (fsm main_init))
  ∧ (∀ sd e c,
       match table_next sd e with
       | Some _ => True
       | None => process e (settled sd c) = Crash NullFunctionCall
       end).
Proof.
  split; [reflexivity|]. split.
  - eexists. split; [reflexivity|]. split; [reflexivity | discriminate].
  - intros sd e c. rewrite process_settled. by destruct (table_next sd e).
Qed.

End Process.

(** ** Sequences of events *)

Section Sequences.

Lemma run_events_app (es1 es2 : list Event) (p : Program) :
  run_events (es1 ++ es2) p
    = do (p1, o1) <- run_events es1 p;
      do (p2, o2) <- run_events es2 p1;
      Ok (p2, o1 ++ o2).
Proof.
  revert p. induction es1 as [|e es1 IH]; intros p; simpl.
  - by destruct (run_events es2 p) as [[p2 o2]|].
  - destruct (process e p) as [[p1 o1]|]; simpl; [|done].
    rewrite IH. destruct (run_events es1 p1) as [[p2 o2]|]; simpl; [|done].
    destruct (run_events es2 p2) as [[p3 o3]|]; simpl; [|done].
    by rewrite app_assoc.
Qed.

Lemma run_add (a b : nat) (p : Program) :
  run (a + b) p
    = do (p1, o1) <- run a p;
      do (p2, o2) <- run b p1;
      Ok (p2, o1 ++ o2).
Proof.
  revert p. induction a as [|a IH]; intros p; simpl.
  - by destruct (run b p) as [[p2 o2]|].
  - destruct (get_event (call p)) as [[e c]|]; simpl; [|done].
    destruct (process e _) as [[p1 o1]|]; simpl; [|done].
    rewrite IH. destruct (run a p1) as [[p2 o2]|]; simpl; [|done].
    destruct (run b p2) as [[p3 o3]|]; simpl; [|done].
    by rewrite app_assoc.
Qed.

(** A settled program follows the documented table as long as the
    events have rows in it, one line of output per event. *)
Lemma run_events_settled (es : list Event) :
  ∀ (sd sd' : StateDescriptor) (c : Z),
    table_path sd es = Some sd' →
    ∃ out, run_events es (settled sd c) = Ok (settled sd' c, out)
           ∧ length out = length es.
Proof.
  induction es as [|e es IH]; intros sd sd' c Hpath; simpl in *.
  - injection Hpath as <-. by exists [].
  - rewrite process_settled.
    destruct (table_next sd e) as [sd1|] eqn:Hnext; [|discriminate Hpath].
    destruct (operation sd e) as [f|] eqn:Hop.
    + cbn [bind].
      destruct (IH sd1 sd' c Hpath) as (out & -> & Hlen). cbn [bind].
      exists (invoke f ++ out). split; [done|].
      rewrite length_app, Hlen. by destruct f.
    + by destruct sd, e.
Qed.

(** The settled programs hold a live instance of the manager. *)
Lemma settled_live (sd : StateDescriptor) (c : Z) :
  holds_live_state (settled sd c) sd
  ∧ current_state (fsm (settled sd c)) = instance_of (manager (settled sd c)) sd
  ∧ holds_manager_instance (settled sd c).
Proof.
  split; [|split; [reflexivity|]].
  - unfold holds_live_state.
    destruct sd;
      [exists 1%nat, {| object := Idle_new; use_count := 4 |}
      |exists 2%nat, {| object := PhoneRinging_new; use_count := 3 |}
      |exists 3%nat, {| object := InCall_new; use_count := 3 |}];
      repeat split; try (vm_compute; reflexivity); cbn; lia.
  - split; [|by destruct sd].
    destruct sd; cbn; repeat constructor.
Qed.

(** One call cycle from the initial program, and from then on. *)
Lemma call_cycle_first :
  run_events call_cycle main_init = Ok (settled IDLE 0, call_cycle_output)
  ∧ run 3 main_init = Ok (settled IDLE 0, call_cycle_output).
Proof. split; vm_compute; reflexivity. Qed.

Lemma call_cycle_again :
  run_events call_cycle (settled IDLE 0) = Ok (settled IDLE 0, call_cycle_output)
  ∧ run 3 (settled IDLE 0) = Ok (settled IDLE 0, call_cycle_output).
Proof. split; vm_compute; reflexivity. Qed.

Lemma call_cycles_settled (N : nat) :
  run_events (concat (replicate N call_cycle)) (settled IDLE 0)
    = Ok (settled IDLE 0, concat (replicate N call_cycle_output))
  ∧ run (3 * N) (settled IDLE 0)
    = Ok (settled IDLE 0, concat (replicate N call_cycle_output)).
Proof.
  induction N as [|N [IH1 IH2]]; [done|].
  split.
  - change (concat (replicate (S N) call_cycle))
      with (call_cycle ++ concat (replicate N call_cycle)).
    rewrite run_events_app, (proj1 call_cycle_again). cbn [bind].
    rewrite IH1. reflexivity.
  - replace (3 * S N)%nat with (3 + 3 * N)%nat by lia.
    rewrite run_add, (proj2 call_cycle_again). cbn [bind].
    rewrite IH2. reflexivity.
Qed.

(** Claim C4: from the initial state, the events INCOMING_CALL,
    CALL_ANSWERED, CALL_ENDED take the machine through Idle, Ringing,
    InCall and back to Idle, and print exactly three lines, one per
    event: the phone rings, the call is answered, the call ends. *)
Theorem call_cycle_trace :
  ∃ p, run_events [INCOMING_CALL; CALL_ANSWERED; CALL_ENDED] main_init
         = Ok (p, ["Phone started ringing" +:+ endl;
                   "Call answered. Starting conversation" +:+ endl;
                   "Call ended" +:+ endl])
       ∧ visited [INCOMING_CALL; CALL_ANSWERED; CALL_ENDED] main_init
         = [Some IDLE; Some PHONE_RING; Some IN_CALL; Some IDLE]
       ∧ current_descriptor main_init = Ok IDLE
       ∧ current_descriptor p = Ok IDLE.
Proof. eexists. repeat split; vm_compute; reflexivity. Qed.

(** Claim C5: for every N, N repetitions of the accepted three-event
    sequence from the initial state end in Idle and print exactly 3N
    lines (N times the three lines of one cycle); the same holds of the
    loop of [run] fed by [get_event] for 3N turns. As N is arbitrary, the
    machine is in Idle after each of the cycles. *)
Theorem call_cycles (N : nat) :
  ∃ p, run_events (concat (replicate N call_cycle)) main_init
         = Ok (p, concat (replicate N call_cycle_output))
       ∧ run (3 * N) main_init = Ok (p, concat (replicate N call_cycle_output))
       ∧ current_descriptor p = Ok IDLE
       ∧ length (concat (replicate N call_cycle_output)) = (3 * N)%nat.
Proof.
  assert (Hlen : ∀ k, length (concat (replicate k call_cycle_output)) = (3 * k)%nat).
  { induction k as [|k IH]; [done|].
    cbn [replicate concat]. rewrite length_app, IH. cbn. lia. }
  destruct N as [|N].
  - exists main_init. repeat split; reflexivity.
  - exists (settled IDLE 0). split; [|split; [|split]].
    + change (concat (replicate (S N) call_cycle))
        with (call_cycle ++ concat (replicate N call_cycle)).
      rewrite run_events_app, (proj1 call_cycle_first). cbn [bind].
      rewrite (proj1 (call_cycles_settled N)). reflexivity.
    + replace (3 * S N)%nat with (3 + 3 * N)%nat by lia.
      rewrite run_add, (proj2 call_cycle_first). cbn [bind].
      rewrite (proj2 (call_cycles_settled N)). reflexivity.
    + reflexivity.
    + apply Hlen.
Qed.

End Sequences.

(** ** The event stub *)

Section GetEvent.

Lemma mod3_cases (n : nat) :
  (n mod 3 = 0 ∧ S n mod 3 = 1)%nat
  ∨ (n mod 3 = 1 ∧ S n mod 3 = 2)%nat
  ∨ (n mod 3 = 2 ∧ S n mod 3 = 0)%nat.
Proof.
  pose proof (Nat.div_mod_eq n 3). pose proof (Nat.div_mod_eq (S n) 3).
  pose proof (Nat.mod_upper_bound n 3). pose proof (Nat.mod_upper_bound (S n) 3).
  lia.
Qed.

(** [get_event] throws exactly when the counter is outside 0..2. *)
Lemma get_event_ok (c : Z) :
  is_ok (get_event c) = bool_decide (0 ≤ c ≤ 2).
Proof.
  unfold get_event.
  destruct (decide (c = 0)) as [->|H0]; [done|].
  destruct (decide (c = 1)) as [->|H1]; [done|].
  destruct (decide (c = 2)) as [->|H2]; [done|].
  cbn. symmetry. apply bool_decide_eq_false. lia.
Qed.

(** The counter after [n] calls is [n mod 3]. *)
Lemma call_after_mod (n : nat) : call_after n = Ok (Z.of_nat (n mod 3)).
Proof.
  induction n as [|n IH]; [reflexivity|].
  cbn [call_after]. rewrite IH. cbn [bind].
  destruct (mod3_cases n) as [[-> ->]|[[-> ->]|[-> ->]]]; reflexivity.
Qed.

(** Claim C7: the calls of [get_event] return INCOMING_CALL,
    CALL_ANSWERED, CALL_ENDED in a cycle: the call number n (counting
    from 0) returns the first when n mod 3 = 0, the second when
    n mod 3 = 1 and the third when n mod 3 = 2; CALL_DECLINED is never
    returned. *)
Theorem get_event_cyclic (n : nat) :
  nth_event n
    = Ok (match (n mod 3)%nat with
          | 0%nat => INCOMING_CALL
          | 1%nat => CALL_ANSWERED
          | _ => CALL_ENDED
          end)
  ∧ nth_event n ≠ Ok CALL_DECLINED.
Proof.
  unfold nth_event. rewrite call_after_mod. cbn [bind].
  destruct (mod3_cases n) as [[-> _]|[[-> _]|[-> _]]]; split;
    first [reflexivity | discriminate].
Qed.

(** Claim C9: on entry to every call of [get_event] the static counter
    is 0, 1 or 2, so the call returns one of INCOMING_CALL,
    CALL_ANSWERED, CALL_ENDED and leaves the counter in 0..2; the
    [throw] is taken only for a counter outside 0..2, which never
    occurs. *)
Theorem get_event_total (n : nat) :
  ∃ c e c',
    call_after n = Ok c
    ∧ (c = 0 ∨ c = 1 ∨ c = 2)
    ∧ get_event c = Ok (e, c')
    ∧ (e = INCOMING_CALL ∨ e = CALL_ANSWERED ∨ e = CALL_ENDED)
    ∧ (c' = 0 ∨ c' = 1 ∨ c' = 2)
    ∧ (∀ z, is_ok (get_event z) = bool_decide (0 ≤ z ≤ 2)).
Proof.
  exists (Z.of_nat (n mod 3)).
  pose proof (call_after_mod n) as Hc.
  destruct (mod3_cases n) as [[E _]|[[E _]|[E _]]]; rewrite E in *;
    do 2 eexists; (split; [exact Hc |]); cbn;
    (split; [lia|]); (split; [vm_compute; reflexivity|]);
    (split; [tauto|]); (split; [lia | apply get_event_ok]).
Qed.

End GetEvent.

(** ** The engine *)

Section Engine.

Lemma run_one_turn (n : nat) :
  ∃ out, run 1 (after_turns n) = Ok (after_turns (S n), out) ∧ length out = 1%nat.
Proof.
  destruct n as [|n].
  - eexists. split; vm_compute; reflexivity.
  - unfold after_turns.
    destruct (mod3_cases (S n)) as [[E1 E2]|[[E1 E2]|[E1 E2]]];
      rewrite E1, E2; eexists; split; vm_compute; reflexivity.
Qed.

Lemma run_after_turns (n : nat) :
  ∃ out, run n main_init = Ok (after_turns n, out) ∧ length out = n.
Proof.
  induction n as [|n (out & IH & Hlen)]; [by exists []|].
  replace (S n) with (n + 1)%nat by lia.
  rewrite run_add, IH. cbn [bind].
  destruct (run_one_turn n) as (out1 & H1 & Hlen1).
  replace (n + 1)%nat with (S n) by lia.
  rewrite H1. cbn [bind]. exists (out ++ out1). split; [done|].
  rewrite length_app. lia.
Qed.

Lemma after_turns_state (n : nat) :
  current_descriptor (after_turns n)
    = Ok (match (n mod 3)%nat with
          | 0%nat => IDLE
          | 1%nat => PHONE_RING
          | _ => IN_CALL
          end)
  ∧ call (after_turns n) = Z.of_nat (n mod 3).
Proof.
  destruct n as [|n]; [done|]. unfold after_turns.
  destruct (mod3_cases (S n)) as [[E1 _]|[[E1 _]|[E1 _]]]; by rewrite E1.
Qed.

(** The claim fails before any event, where the current state is the
    fourth handler, built by the [FSM] itself; and after a rejected
    event, where there is no program state left to speak of. *)
Lemma current_state_not_manager_instance :
  ¬ keeps_manager_instance [] ∧ ¬ keeps_manager_instance [CALL_ANSWERED].
Proof.
  split.
  - intros (p & out & Hrun & Hin & _). injection Hrun as <- _.
    cbn in Hin.
    repeat (apply elem_of_cons in Hin as [Hin|Hin]; [discriminate Hin|]).
    by apply elem_of_nil in Hin.
  - intros (p & out & Hrun & _). discriminate Hrun.
Qed.

(** Claim C6, amended: along every sequence of events that follows the
    table from Idle, the [FSM] holds one non-null reference to a live
    handler whose class is the state the table leads to. Before the
    first event it is the Idle handler the [FSM] has built for itself,
    which is none of the manager's three; after each processed event it
    is the manager's instance for the new state. *)
Theorem current_state_along_table (es : list Event) (sd : StateDescriptor) :
  table_path IDLE es = Some sd →
  ∃ p out,
    run_events es main_init = Ok (p, out)
    ∧ holds_live_state p sd
    ∧ match es with
      | [] => p = main_init ∧ ¬ holds_manager_instance p
      | _ :: _ =>
          current_state (fsm p) = instance_of (manager p) sd
          ∧ holds_manager_instance p
      end.
Proof.
  destruct es as [|e es]; intros Hpath.
  - injection Hpath as <-. exists main_init, []. split; [reflexivity|]. split.
    + exists 0%nat, {| object := Idle_new; use_count := 1 |}.
      repeat split; try (vm_compute; reflexivity); cbn; lia.
    + split; [reflexivity|]. intros [Hin _]. cbn in Hin.
      repeat (apply elem_of_cons in Hin as [Hin|Hin]; [discriminate Hin|]).
      by apply elem_of_nil in Hin.
  - cbn [table_path] in Hpath. cbn [run_events].
    rewrite <- with_call_main_init, process_main_init.
    destruct (table_next IDLE e) as [sd1|] eqn:Hnext; [|discriminate Hpath].
    destruct (operation IDLE e) as [f|] eqn:Hop; [|by destruct e].
    cbn [bind].
    destruct (run_events_settled es sd1 sd 0 Hpath) as (out & -> & _).
    cbn [bind]. do 2 eexists. split; [reflexivity|].
    destruct (settled_live sd 0) as (Hlive & Hinst & Hman).
    split; [exact Hlive|]. split; [exact Hinst | exact Hman].
Qed.

Lemma current_state_along_table_witness :
  table_path IDLE [INCOMING_CALL; CALL_DECLINED; INCOMING_CALL; CALL_ANSWERED]
    = Some IN_CALL
  ∧ ∃ p out,
      run_events [INCOMING_CALL; CALL_DECLINED; INCOMING_CALL; CALL_ANSWERED]
        main_init = Ok (p, out)
      ∧ holds_live_state p IN_CALL
      ∧ current_state (fsm p) = instance_of (manager p) IN_CALL
      ∧ holds_manager_instance p.
Proof.
  split; [reflexivity|].
  apply (current_state_along_table
           [INCOMING_CALL; CALL_DECLINED; INCOMING_CALL; CALL_ANSWERED] IN_CALL).
  reflexivity.
Defined.

(** Property X14: with the events [get_event] delivers, no turn of the
    loop of [run] crashes or throws and the loop goes on for ever: after
    any number of turns the program is back at the head of the loop,
    having printed one line a turn, with the machine on the Idle,
    Ringing, InCall cycle and the counter of [get_event] in step with
    it. *)
Theorem run_never_stops (n : nat) :
  ∃ p out,
    run n main_init = Ok (p, out)
    ∧ length out = n
    ∧ current_descriptor p
      = Ok (match (n mod 3)%nat with
            | 0%nat => IDLE
            | 1%nat => PHONE_RING
            | _ => IN_CALL
            end)
    ∧ call_after n = Ok (call p)
    ∧ is_ok (run (S n) main_init) = true.
Proof.
  destruct (run_after_turns n) as (out & Hrun & Hlen).
  destruct (after_turns_state n) as [Hsd Hcall].
  exists (after_turns n), out. repeat split; try done.
  - rewrite Hcall. apply call_after_mod.
  - destruct (run_after_turns (S n)) as (out' & -> & _). reflexivity.
Qed.

End Engine.

(** * Further properties of the code *)

(** ** Handlers and table, in general *)

Section HandlersInGeneral.

(** Property X1: for a handler object in any state of its map, [do_op]
    succeeds exactly when the map holds a non-null operation for the
    event; it then prints that operation's line and leaves the object as
    it was. A missing entry and an entry holding the null pointer both
    end in a call through a null pointer. *)
Theorem do_op_any_handler (s : State) (e : Event) :
  do_op s e
    = match handler_map s !! e with
      | Some (Some f) => Ok (s, invoke f)
      | _ => Crash NullFunctionCall
      end.
Proof.
  unfold do_op, HandlerMap.subscript.
  destruct (handler_map s !! e) as [[f|]|] eqn:E; cbn; try reflexivity.
  by destruct s.
Qed.

Lemma do_op_ok (s s' : State) (e : Event) (out : list string) :
  do_op s e = Ok (s', out) →
  s' = s ∧ ∃ f, handler_map s !! e = Some (Some f) ∧ out = invoke f.
Proof.
  unfold do_op, HandlerMap.subscript.
  destruct (handler_map s !! e) as [[f|]|] eqn:E; cbn; try discriminate.
  intros [= <- <-]. split; [by destruct s | by exists f].
Qed.

(** Property X2: the handlers and the table agree. For each of the twelve
    pairs, the handler class built by its constructor has an operation
    for the event exactly when the table built by the manager's
    constructor has a next state for the pair. *)
Theorem handlers_agree_with_table (sd : StateDescriptor) (e : Event) :
  has_handler (new_State sd) e
    = bool_decide
        (is_Some (get_next_state (manager main_init) sd e (heap main_init)).1).
Proof. destruct sd, e; reflexivity. Qed.

(** Property X3: in an array of [NUM_STATES] rows of [NUM_EVENTS] cells,
    writing [mapping[sd][e]] and reading [mapping[sd'][e']] gives the
    value written when the two pairs are the same and the old content
    otherwise; the write keeps the dimensions. *)
Theorem mapping_get_set (mp : list (list (option nat)))
    (sd sd' : StateDescriptor) (e e' : Event) (q : option nat) :
  length mp = NUM_STATES →
  Forall (λ row, length row = NUM_EVENTS) mp →
  mapping_get (mapping_set mp sd e q) sd' e'
    = (if decide (sd = sd' ∧ e = e') then q else mapping_get mp sd' e')
  ∧ length (mapping_set mp sd e q) = NUM_STATES
  ∧ Forall (λ row, length row = NUM_EVENTS) (mapping_set mp sd e q).
Proof.
  intros Hlen Hrows.
  destruct mp as [|r0 [|r1 [|r2 [|]]]]; try discriminate Hlen.
  apply Forall_cons in Hrows as [H0 Hrows].
  apply Forall_cons in Hrows as [H1 Hrows].
  apply Forall_cons in Hrows as [H2 _].
  destruct r0 as [|? [|? [|? [|? [|]]]]]; try discriminate H0.
  destruct r1 as [|? [|? [|? [|? [|]]]]]; try discriminate H1.
  destruct r2 as [|? [|? [|? [|? [|]]]]]; try discriminate H2.
  split; [|split].
  - destruct sd, sd', e, e'; reflexivity.
  - by destruct sd.
  - destruct sd, e; repeat constructor.
Qed.

Lemma mapping_get_set_witness :
  length (replicate NUM_STATES (replicate NUM_EVENTS (@None nat))) = NUM_STATES
  ∧ mapping_get
      (mapping_set (replicate NUM_STATES (replicate NUM_EVENTS None))
         PHONE_RING CALL_DECLINED (Some 7%nat)) IN_CALL CALL_DECLINED
    = None.
Proof.
  split; [reflexivity|].
  apply (mapping_get_set (replicate NUM_STATES (replicate NUM_EVENTS None))
           PHONE_RING IN_CALL CALL_DECLINED CALL_DECLINED (Some 7%nat));
    [reflexivity | repeat constructor].
Defined.

(** Property X4: [get_next_state] never reads outside the array. Every
    enumerator of [StateDescriptor] is below [NUM_STATES], every
    enumerator of [Event] below [NUM_EVENTS], the table has exactly that
    many rows and cells, and the value returned is the cell at the two
    enumerator values. *)
Theorem mapping_index_in_bounds (sd : StateDescriptor) (e : Event) :
  (StateDescriptor_index sd < NUM_STATES)%nat
  ∧ (Event_index e < NUM_EVENTS)%nat
  ∧ length (mapping (manager main_init)) = NUM_STATES
  ∧ Forall (λ row, length row = NUM_EVENTS) (mapping (manager main_init))
  ∧ ∃ row, mapping (manager main_init) !! StateDescriptor_index sd = Some row
           ∧ row !! Event_index e
             = Some (get_next_state (manager main_init) sd e (heap main_init)).1.
Proof.
  split; [destruct sd; cbn; unfold NUM_STATES; lia|].
  split; [destruct e; cbn; unfold NUM_EVENTS; lia|].
  split; [reflexivity|]. split; [repeat constructor|].
  destruct sd, e; eexists; split; reflexivity.
Qed.

Lemma TransitionManager_new_manager (h : Heap) :
  (TransitionManager_new h).1
  = let n := next_addr h in
    {| mapping := [[Some (S n); None; None; None];
                   [None; Some n; Some (S (S n)); None];
                   [None; None; None; Some n]];
       idle_state := Some n;
       phone_ringing_state := Some (S n);
       in_call_state := Some (S (S n)) |}.
Proof. reflexivity. Qed.

Lemma TransitionManager_new_heap (h : Heap) :
  (TransitionManager_new h).2
  = let n := next_addr h in
    {| cells :=
         alter one_more n
           (alter one_more n
              (alter one_more (S (S n))
                 (alter one_more (S n)
                    (<[S (S n) := {| object := InCall_new; use_count := 1 |}]>
                       (<[S n := {| object := PhoneRinging_new; use_count := 1 |}]>
                          (<[n := {| object := Idle_new; use_count := 1 |}]>
                             (cells h)))))));
       next_addr := S (S (S n)) |}.
Proof. reflexivity. Qed.

(** Property X5: the constructor of [TransitionManager] does the same on
    every heap. It allocates three handlers, one of each class, at the
    next three addresses; the table it fills is the documented one over
    these three; the Idle handler ends with three owners (the member and
    two cells), the other two with two each; and no object allocated
    before is touched. *)
Theorem TransitionManager_new_any_heap (h : Heap) :
  let n := next_addr h in
  let tm := (TransitionManager_new h).1 in
  let h' := (TransitionManager_new h).2 in
  idle_state tm = Some n
  ∧ phone_ringing_state tm = Some (S n)
  ∧ in_call_state tm = Some (S (S n))
  ∧ (∀ sd e, mapping_get (mapping tm) sd e
             = match table_next sd e with
               | Some sd' => instance_of tm sd'
               | None => None
               end)
  ∧ cells h' !! n = Some {| object := Idle_new; use_count := 3 |}
  ∧ cells h' !! S n = Some {| object := PhoneRinging_new; use_count := 2 |}
  ∧ cells h' !! S (S n) = Some {| object := InCall_new; use_count := 2 |}
  ∧ (∀ a, (a < n)%nat → cells h' !! a = cells h !! a)
  ∧ next_addr h' = S (S (S n)).
Proof.
  intros n tm h'. subst tm h'.
  rewrite TransitionManager_new_manager, TransitionManager_new_heap.
  cbn zeta. fold n.
  cbn [idle_state phone_ringing_state in_call_state mapping cells next_addr].
  split; [done|]. split; [done|]. split; [done|].
  split; [intros sd e; by destruct sd, e|].
  assert (n ≠ S n) by lia. assert (n ≠ S (S n)) by lia. assert (S n ≠ S (S n)) by lia.
  split; [|split; [|split; [|split; [|done]]]].
  - by simplify_map_eq.
  - by simplify_map_eq.
  - by simplify_map_eq.
  - intros a Ha.
    assert (n ≠ a) by lia. assert (S n ≠ a) by lia. assert (S (S n) ≠ a) by lia.
    by simplify_map_eq.
Qed.

End HandlersInGeneral.

(** ** What a turn of the loop leaves alone *)

Section Frame.

Lemma objects_kept_refl (h : Heap) : objects_kept h h.
Proof. intros a c' H. by exists c'. Qed.

Lemma objects_kept_trans (h1 h2 h3 : Heap) :
  objects_kept h1 h2 → objects_kept h2 h3 → objects_kept h1 h3.
Proof.
  intros H12 H23 a c3 H3.
  destruct (H23 a c3 H3) as (c2 & H2 & E23).
  destruct (H12 a c2 H2) as (c1 & H1 & E12).
  exists c1. split; [done | congruence].
Qed.

Lemma copy_ptr_kept (q : option nat) (h : Heap) : objects_kept h (copy_ptr q h).
Proof.
  destruct q as [b|]; [|apply objects_kept_refl].
  intros a c' H. cbn in H.
  destruct (decide (b = a)) as [->|Hne].
  - rewrite lookup_alter_eq in H.
    destruct (cells h !! a) as [c|] eqn:E; [|discriminate H].
    injection H as <-. by exists c.
  - rewrite lookup_alter_ne in H by done. by exists c'.
Qed.

Lemma drop_ptr_kept (q : option nat) (h : Heap) : objects_kept h (drop_ptr q h).
Proof.
  destruct q as [b|]; [|apply objects_kept_refl].
  intros a c' H. cbn in H.
  destruct (cells h !! b) as [c|] eqn:E; [|by exists c'].
  cbn in H. destruct (decide (b = a)) as [->|Hne].
  - destruct (use_count c) as [|[|n]].
    + by rewrite lookup_delete_eq in H.
    + by rewrite lookup_delete_eq in H.
    + rewrite lookup_insert_eq in H. injection H as <-. by exists c.
  - destruct (use_count c) as [|[|n]].
    + rewrite lookup_delete_ne in H by done. by exists c'.
    + rewrite lookup_delete_ne in H by done. by exists c'.
    + rewrite lookup_insert_ne in H by done. by exists c'.
Qed.

Lemma store_same_kept (q : option nat) (s : State) (h : Heap) :
  deref q h = Ok s → objects_kept h (store q s h).
Proof.
  destruct q as [b|]; [|intros _; apply objects_kept_refl].
  cbn. destruct (cells h !! b) as [c|] eqn:E; [|discriminate].
  intros [= <-] a c' H. cbn in H.
  destruct (decide (b = a)) as [->|Hne].
  - rewrite lookup_alter_eq, E in H. injection H as <-. by exists c.
  - rewrite lookup_alter_ne in H by done. by exists c'.
Qed.

(** Property X6: a turn of the loop that succeeds, from any program state
    and for any event, allocates nothing, leaves the manager and the
    counter of [get_event] alone, and changes no handler: every object
    alive after the turn was alive before it with the same map. *)
Theorem process_frame (e : Event) (p p' : Program) (out : list string) :
  process e p = Ok (p', out) →
  next_addr (heap p') = next_addr (heap p)
  ∧ manager p' = manager p
  ∧ call p' = call p
  ∧ objects_kept (heap p) (heap p').
Proof.
  unfold process, dispatch, transition. intros H.
  destruct (deref (current_state (fsm p)) (heap p)) as [s|] eqn:Hs; [|discriminate H].
  cbn in H. destruct (do_op s e) as [[s' o]|] eqn:Hop; [|discriminate H].
  apply do_op_ok in Hop as [-> _]. cbn in H.
  match type of H with
  | context [deref ?q ?h] => destruct (deref q h) as [s2|]; [|discriminate H]
  end.
  cbn in H. injection H as <- _. cbn.
  split; [|split; [done|split; [done|]]].
  - destruct (current_state (fsm p)) as [b|]; [|discriminate Hs]. cbn.
    destruct (mapping_get _ _ _) as [d|]; cbn;
      match goal with |- context [match ?x with _ => _ end] => destruct x end;
      reflexivity.
  - eapply objects_kept_trans; [by apply store_same_kept|].
    eapply objects_kept_trans; [apply copy_ptr_kept | apply drop_ptr_kept].
Qed.

Lemma process_frame_witness :
  process INCOMING_CALL main_init
    = Ok (settled PHONE_RING 0, invoke incoming_call_handler)
  ∧ next_addr (heap (settled PHONE_RING 0)) = next_addr (heap main_init)
  ∧ manager (settled PHONE_RING 0) = manager main_init
  ∧ call (settled PHONE_RING 0) = call main_init
  ∧ objects_kept (heap main_init) (heap (settled PHONE_RING 0)).
Proof.
  split; [reflexivity|].
  apply (process_frame INCOMING_CALL main_init (settled PHONE_RING 0)
           (invoke incoming_call_handler)).
  reflexivity.
Defined.

(** Property X7: the loop prints exactly one line for each event it
    processes, from any program state: when a list of events is processed
    without a crash, the output has as many lines as there were events. *)
Theorem one_line_per_event (es : list Event) :
  ∀ (p p' : Program) (out : list string),
    run_events es p = Ok (p', out) → length out = length es.
Proof.
  induction es as [|e es IH]; intros p p' out H; cbn in H.
  - by injection H as _ <-.
  - destruct (process e p) as [[p1 o1]|] eqn:Hp; [|discriminate H]. cbn in H.
    destruct (run_events es p1) as [[p2 o2]|] eqn:Hr; [|discriminate H]. cbn in H.
    injection H as _ <-. rewrite length_app, (IH _ _ _ Hr). cbn. f_equal.
    unfold process, dispatch in Hp.
    destruct (deref _ _) as [s|]; [|discriminate Hp]. cbn in Hp.
    destruct (do_op s e) as [[s' o]|] eqn:Hop; [|discriminate Hp].
    apply do_op_ok in Hop as (-> & f & _ & ->). cbn in Hp.
    destruct (transition _ _); [|discriminate Hp]. cbn in Hp.
    injection Hp as _ <-. by destruct f.
Qed.

Lemma one_line_per_event_witness :
  run_events [INCOMING_CALL; CALL_DECLINED] main_init
    = Ok (settled IDLE 0, invoke incoming_call_handler ++ invoke call_declined_handler)
  ∧ length (invoke incoming_call_handler ++ invoke call_declined_handler)
    = length [INCOMING_CALL; CALL_DECLINED].
Proof.
  split; [vm_compute; reflexivity|].
  apply (one_line_per_event [INCOMING_CALL; CALL_DECLINED] main_init (settled IDLE 0)).
  vm_compute; reflexivity.
Defined.

End Frame.

(** ** The engine against the documented table *)

Section AgainstTable.

(** From a settled program the loop is the documented table: it follows
    the rows, printing the operations' lines, and crashes on the first
    event without a row. *)
Lemma run_events_settled_full (es : list Event) :
  ∀ (sd : StateDescriptor) (c : Z),
    run_events es (settled sd c)
      = match table_path sd es with
        | Some sd' => Ok (settled sd' c, table_output sd es)
        | None => Crash NullFunctionCall
        end.
Proof.
  induction es as [|e es IH]; intros sd c; [reflexivity|].
  cbn [run_events table_path table_output]. rewrite process_settled.
  destruct (table_next sd e) as [sd1|] eqn:Hnext; [|reflexivity].
  destruct (operation sd e) as [f|] eqn:Hop; [|by destruct sd, e].
  cbn [bind]. rewrite IH. by destruct (table_path sd1 es).
Qed.

Lemma run_events_main_init_full (e : Event) (es : list Event) :
  run_events (e :: es) main_init
    = match table_path IDLE (e :: es) with
      | Some sd' => Ok (settled sd' 0, table_output IDLE (e :: es))
      | None => Crash NullFunctionCall
      end.
Proof.
  cbn [run_events table_path table_output].
  rewrite <- with_call_main_init, process_main_init.
  destruct (table_next IDLE e) as [sd1|] eqn:Hnext; [|reflexivity].
  destruct (operation IDLE e) as [f|] eqn:Hop; [|by destruct e].
  cbn [bind]. rewrite run_events_settled_full. by destruct (table_path sd1 es).
Qed.

(** Property X8: from the program as [main] builds it, the loop processes
    a list of events without a crash exactly when the list follows the
    documented table from Idle. It then prints the lines of the
    operations of the rows taken, in order, and ends in the state the
    table leads to; otherwise it crashes on a null function pointer. *)
Theorem run_events_follows_table (es : list Event) :
  match table_path IDLE es with
  | Some sd =>
      ∃ p, run_events es main_init = Ok (p, table_output IDLE es)
           ∧ current_descriptor p = Ok sd
  | None => run_events es main_init = Crash NullFunctionCall
  end.
Proof.
  destruct es as [|e es].
  - exists main_init. split; reflexivity.
  - rewrite run_events_main_init_full.
    destruct (table_path IDLE (e :: es)) as [sd|]; [|reflexivity].
    eexists. split; [reflexivity|]. by destruct sd.
Qed.

(** Property X9: the machine keeps no history. Two non-empty lists of
    events that follow the table from Idle to the same state leave the
    very same program: the same heap with the same use counts, the same
    current-state pointer. *)
Theorem state_depends_on_last_state
    (e1 e2 : Event) (es1 es2 : list Event) (sd : StateDescriptor) :
  table_path IDLE (e1 :: es1) = Some sd →
  table_path IDLE (e2 :: es2) = Some sd →
  ∃ p, run_events (e1 :: es1) main_init = Ok (p, table_output IDLE (e1 :: es1))
       ∧ run_events (e2 :: es2) main_init = Ok (p, table_output IDLE (e2 :: es2)).
Proof.
  intros H1 H2. exists (settled sd 0).
  rewrite !run_events_main_init_full, H1, H2. done.
Qed.

Lemma state_depends_on_last_state_witness :
  table_path IDLE [INCOMING_CALL; CALL_DECLINED] = Some IDLE
  ∧ table_path IDLE [INCOMING_CALL; CALL_ANSWERED; CALL_ENDED] = Some IDLE
  ∧ ∃ p, run_events [INCOMING_CALL; CALL_DECLINED] main_init
           = Ok (p, table_output IDLE [INCOMING_CALL; CALL_DECLINED])
         ∧ run_events [INCOMING_CALL; CALL_ANSWERED; CALL_ENDED] main_init
           = Ok (p, table_output IDLE [INCOMING_CALL; CALL_ANSWERED; CALL_ENDED]).
Proof.
  split; [reflexivity|]. split; [reflexivity|].
  apply (state_depends_on_last_state INCOMING_CALL INCOMING_CALL
           [CALL_DECLINED] [CALL_ANSWERED; CALL_ENDED] IDLE); reflexivity.
Defined.

(** Property X10: the reference counts stay exact. After any list of
    events that follows the table from Idle, the use count of every live
    object is the number of [shared_ptr]s that point to it (the current
    state, the manager's members and the cells of its table) and is
    positive, and every such pointer points to a live object. *)
Theorem counts_consistent_along_table (es : list Event) (sd : StateDescriptor) :
  table_path IDLE es = Some sd →
  ∃ p out, run_events es main_init = Ok (p, out) ∧ counts_consistent p.
Proof.
  intros Hpath. destruct es as [|e es].
  - exists main_init, []. split; [reflexivity|].
    apply (bool_decide_unpack _). vm_compute. exact I.
  - rewrite run_events_main_init_full, Hpath. do 2 eexists. split; [reflexivity|].
    destruct sd; apply (bool_decide_unpack _); vm_compute; exact I.
Qed.

Lemma counts_consistent_along_table_witness :
  table_path IDLE [INCOMING_CALL; CALL_ANSWERED] = Some IN_CALL
  ∧ ∃ p out, run_events [INCOMING_CALL; CALL_ANSWERED] main_init = Ok (p, out)
             ∧ counts_consistent p.
Proof.
  split; [reflexivity|].
  apply (counts_consistent_along_table [INCOMING_CALL; CALL_ANSWERED] IN_CALL).
  reflexivity.
Defined.

(** Property X11: the lifetimes of the handlers. After any list of events
    that follows the table from Idle, the manager's three handlers are
    alive and are as their constructors built them; the Idle handler the
    [FSM] built for itself is alive until the first event and destroyed
    by it; and the loop has allocated nothing. *)
Theorem handler_lifetimes (es : list Event) (sd : StateDescriptor) :
  table_path IDLE es = Some sd →
  ∃ p out,
    run_events es main_init = Ok (p, out)
    ∧ (∀ sd', deref (instance_of (manager p) sd') (heap p) = Ok (new_State sd'))
    ∧ deref (current_state (fsm main_init)) (heap p)
      = match es with
        | [] => Ok Idle_new
        | _ :: _ => Crash DanglingDeref
        end
    ∧ next_addr (heap p) = next_addr (heap main_init).
Proof.
  intros Hpath. destruct es as [|e es].
  - exists main_init, []. split; [reflexivity|]. split; [by intros []|]. done.
  - rewrite run_events_main_init_full, Hpath. do 2 eexists. split; [reflexivity|].
    split; [|split].
    + intros sd'. destruct sd, sd'; vm_compute; reflexivity.
    + destruct sd; vm_compute; reflexivity.
    + by destruct sd.
Qed.

Lemma handler_lifetimes_witness :
  table_path IDLE [INCOMING_CALL] = Some PHONE_RING
  ∧ ∃ p out,
      run_events [INCOMING_CALL] main_init = Ok (p, out)
      ∧ (∀ sd', deref (instance_of (manager p) sd') (heap p) = Ok (new_State sd'))
      ∧ deref (current_state (fsm main_init)) (heap p) = Crash DanglingDeref
      ∧ next_addr (heap p) = next_addr (heap main_init).
Proof.
  split; [reflexivity|].
  apply (handler_lifetimes [INCOMING_CALL] PHONE_RING). reflexivity.
Defined.

End AgainstTable.

(** ** The loop and its event stub *)

Section Delivered.

Lemma process_with_call (e : Event) (c : Z) (p : Program) :
  process e (with_call c p)
    = do (p', out) <- process e p; Ok (with_call c p', out).
Proof.
  unfold process, dispatch, transition, with_call. cbn.
  destruct (deref (current_state (fsm p)) (heap p)) as [s|]; [|reflexivity]. cbn.
  destruct (do_op s e) as [[s' o]|]; [|reflexivity]. cbn.
  match goal with
  | |- context [deref ?q ?h] => destruct (deref q h) as [s2|]; [|reflexivity]
  end.
  reflexivity.
Qed.

Lemma run_events_with_call (es : list Event) (c : Z) :
  ∀ p, run_events es (with_call c p)
       = do (p', out) <- run_events es p; Ok (with_call c p', out).
Proof.
  induction es as [|e es IH]; intros p; [reflexivity|].
  cbn [run_events]. rewrite process_with_call.
  destruct (process e p) as [[p1 o1]|]; [|reflexivity]. cbn [bind].
  rewrite IH. by destruct (run_events es p1) as [[p2 o2]|].
Qed.

(** Property X12: the counter of [get_event] counts modulo three. From a
    counter in 0..2, any number [n] of calls all return, leave the
    counter at (c + n) mod 3, and never return CALL_DECLINED. *)
Theorem delivered_counter (n : nat) :
  ∀ c : Z, 0 ≤ c ≤ 2 →
    ∃ es, delivered n c = Ok (es, (c + Z.of_nat n) mod 3)
          ∧ length es = n
          ∧ CALL_DECLINED ∉ es.
Proof.
  induction n as [|n IH]; intros c Hc.
  - exists []. split; [|split; [done | apply not_elem_of_nil]].
    cbn. rewrite Z.add_0_r, Z.mod_small by lia. reflexivity.
  - assert (c = 0 ∨ c = 1 ∨ c = 2) as [-> | [-> | ->]] by lia; cbn [delivered].
    + destruct (IH 1 ltac:(lia)) as (es & Hd & Hlen & Hnot).
      change (get_event 0) with (Ok (INCOMING_CALL, 1)). cbn [bind].
      rewrite Hd. cbn [bind].
      exists (INCOMING_CALL :: es). split; [|split].
      * do 3 f_equal. lia.
      * cbn. lia.
      * intros [?|?]%elem_of_cons; [discriminate | done].
    + destruct (IH 2 ltac:(lia)) as (es & Hd & Hlen & Hnot).
      change (get_event 1) with (Ok (CALL_ANSWERED, 2)). cbn [bind].
      rewrite Hd. cbn [bind].
      exists (CALL_ANSWERED :: es). split; [|split].
      * do 3 f_equal. lia.
      * cbn. lia.
      * intros [?|?]%elem_of_cons; [discriminate | done].
    + destruct (IH 0 ltac:(lia)) as (es & Hd & Hlen & Hnot).
      change (get_event 2) with (Ok (CALL_ENDED, 0)). cbn [bind].
      rewrite Hd. cbn [bind].
      exists (CALL_ENDED :: es). split; [|split].
      * do 2 f_equal.
        replace (2 + Z.of_nat (S n)) with (0 + Z.of_nat n + 1 * 3) by lia.
        by rewrite Z_mod_plus_full.
      * cbn. lia.
      * intros [?|?]%elem_of_cons; [discriminate | done].
Qed.

Lemma delivered_counter_witness :
  0 ≤ 1 ≤ 2
  ∧ ∃ es, delivered 4 1 = Ok (es, (1 + Z.of_nat 4) mod 3)
          ∧ length es = 4%nat
          ∧ CALL_DECLINED ∉ es.
Proof. split; [lia | apply (delivered_counter 4 1); lia]. Defined.

(** Property X13: the loop of [run] is the loop over the events that
    [get_event] delivers. From any program whose counter is in 0..2, [n]
    turns of [run] do what processing the [n] delivered events in order
    does, crash included, and leave the counter where the [n] calls of
    [get_event] leave it. *)
Theorem run_is_run_events_delivered (n : nat) :
  ∀ p : Program, 0 ≤ call p ≤ 2 →
    ∃ es c,
      delivered n (call p) = Ok (es, c)
      ∧ length es = n
      ∧ 0 ≤ c ≤ 2
      ∧ run n p = do (p', out) <- run_events es p; Ok (with_call c p', out).
Proof.
  induction n as [|n IH]; intros p Hc.
  - exists [], (call p). repeat split; try done; try lia. cbn. by destruct p.
  - cbn [delivered run].
    assert (∃ e c1, get_event (call p) = Ok (e, c1) ∧ 0 ≤ c1 ≤ 2)
      as (e & c1 & -> & Hc1).
    { unfold get_event. repeat case_decide; [| | |lia];
        do 2 eexists; (split; [reflexivity|]); lia. }
    cbn [bind].
    change {| heap := heap p; fsm := fsm p; manager := manager p; call := c1 |}
      with (with_call c1 p).
    rewrite process_with_call.
    destruct (process e p) as [[p1 o1]|] eqn:Hp.
    + cbn [bind].
      destruct (IH (with_call c1 p1) Hc1) as (es & c & Hd & Hlen & Hc' & Hrun).
      cbn in Hd. rewrite Hd. cbn [bind]. exists (e :: es), c.
      split; [done|]. split; [cbn; lia|]. split; [done|].
      rewrite Hrun, run_events_with_call. cbn [run_events]. rewrite Hp. cbn [bind].
      by destruct (run_events es p1) as [[p2 o2]|].
    + cbn [bind].
      assert (∃ es c, delivered n c1 = Ok (es, c) ∧ length es = n ∧ 0 ≤ c ≤ 2)
        as (es & c & Hd & Hlen & Hc').
      { destruct (IH (with_call c1 p) Hc1) as (es & c & Hd & Hlen & Hc' & _). eauto. }
      rewrite Hd. cbn [bind]. exists (e :: es), c.
      split; [done|]. split; [cbn; lia|]. split; [done|].
      cbn [run_events]. by rewrite Hp.
Qed.

Lemma run_is_run_events_delivered_witness :
  0 ≤ call main_init ≤ 2
  ∧ ∃ es c,
      delivered 4 (call main_init) = Ok (es, c)
      ∧ length es = 4%nat
      ∧ 0 ≤ c ≤ 2
      ∧ run 4 main_init
        = do (p', out) <- run_events es main_init; Ok (with_call c p', out).
Proof.
  split; [cbn; lia|].
  apply (run_is_run_events_delivered 4 main_init). cbn; lia.
Defined.

End Delivered.

(** ** Rejected events and the loop *)

Section Rejected.

Lemma table_path_app (es1 es2 : list Event) :
  ∀ sd, table_path sd (es1 ++ es2)
        = match table_path sd es1 with
          | Some sd' => table_path sd' es2
          | None => None
          end.
Proof.
  induction es1 as [|e es1 IH]; intros sd; [reflexivity|].
  cbn [app table_path]. by destruct (table_next sd e).
Qed.

(** Claim C8 asks that no runtime error escape the processing loop and
    that the loop go on to the next event after a rejected one. On the
    code, with the machine in Idle and the events CALL_ANSWERED,
    INCOMING_CALL delivered: the first turn calls through a null function
    pointer, the loop of [run] has nothing that catches it, and the
    second event, which Idle accepts, is never processed. The same holds
    wherever a rejected event comes: after any events that follow the
    table, an event without a row for the state reached crashes the
    loop whatever events come after it. *)
Theorem rejected_event_stops_loop :
  run_events [CALL_ANSWERED; INCOMING_CALL] main_init = Crash NullFunctionCall
  ∧ ¬ (∃ p out, run_events [CALL_ANSWERED; INCOMING_CALL] main_init = Ok (p, out))
  ∧ is_ok (run_events [INCOMING_CALL] main_init) = true
  ∧ (∀ (es1 : list Event) (e : Event) (es2 : list Event),
       match table_path IDLE es1 with
       | Some sd =>
           match table_next sd e with
           | Some _ => True
           | None =>
               run_events (es1 ++ e :: es2) main_init = Crash NullFunctionCall
           end
       | None => True
       end).
Proof.
  split; [reflexivity|].
  split; [intros (p & out & H); discriminate H|].
  split; [reflexivity|].
  intros es1 e es2.
  destruct (table_path IDLE es1) as [sd|] eqn:H1; [|done].
  destruct (table_next sd e) eqn:Hn; [done|].
  assert (table_path IDLE (es1 ++ e :: es2) = None) as Hpath.
  { rewrite table_path_app, H1. cbn [table_path]. by rewrite Hn. }
  destruct es1 as [|e1 es1].
  - cbn [app] in *. by rewrite run_events_main_init_full, Hpath.
  - cbn [app] in *. by rewrite run_events_main_init_full, Hpath.
Qed.

End Rejected.
